(** * Swap cheques: encoding, signing and progression checks

    A shallow embedding of [swap/cheque.go] and the properties of its
    codec, signer/verifier and progression validator.

    Conventions.
    - A Go [uint64] is a [Z] in [0, 2^64); arithmetic that can wrap is
      written with its reduction modulo [2^64].
    - A Go [byte] is a [Byte.byte]; byte arithmetic wraps modulo 256.
    - A Go [[]byte] that may be [nil] is an [option (list byte)].
    - A Go [error] result is an [option error], [None] standing for [nil].
    - A run-time panic (index out of range) is the outcome [Panic].
    - Method receivers and the [*Peer] argument are non-nil; the one
      pointer the code tests for nil, [lastCheque], is an [option]. *)

From Stdlib Require Import ZArith Lia List Strings.Byte String DecimalString.
From stdpp Require Import base list.
Import ListNotations.

Local Open Scope Z_scope.

(** ** Bytes and machine integers *)

#[global] Instance byte_eq_dec : EqDecision byte := Byte.byte_eq_dec.

Definition byte_to_Z (b : byte) : Z := Z.of_N (Byte.to_N b).

(** Go's conversion [byte(v)]: the low eight bits of [v]. *)
Definition byte_of_Z (z : Z) : byte :=
  default x00 (Byte.of_N (Z.to_N (z mod 256))).

(** [b += k] and [b -= k] on a Go byte. *)
Definition byte_add (b : byte) (k : Z) : byte := byte_of_Z (byte_to_Z b + k).
Definition byte_sub (b : byte) (k : Z) : byte := byte_of_Z (byte_to_Z b - k).

Definition uint64_modulus : Z := 2 ^ 64.

Definition is_uint64 (z : Z) : Prop := 0 <= z < uint64_modulus.

(** [a - b] on Go [uint64] values. *)
Definition sub64 (a b : Z) : Z := (a - b) mod uint64_modulus.

(** ** Outcomes: a returned value or a panic *)

Inductive outcome (A : Type) : Type :=
| Ret (a : A)
| Panic.
Arguments Ret {A} a.
Arguments Panic {A}.

Definition obind {A B : Type} (m : outcome A) (k : A -> outcome B) : outcome B :=
  match m with
  | Ret a => k a
  | Panic => Panic
  end.

Notation "x <~ m ;; k" := (obind m (fun x => k))
  (at level 100, m at next level, right associativity).

(** ** Slices *)

(** [make([]byte, n)]. *)
Definition make (n : nat) : list byte := replicate n x00.

(** [copy(dst, src)]: the contents of [dst] afterwards. *)
Definition copy (dst src : list byte) : list byte :=
  let n := Nat.min (length dst) (length src) in
  take n src ++ drop n dst.

(** The statement [s[i] = f(s[i])]; Go panics when [i] is out of range. *)
Definition slice_modify (s : list byte) (i : Z) (f : byte -> byte)
  : outcome (list byte) :=
  if (0 <=? i) && (i <? Z.of_nat (length s))
  then Ret (alter f (Z.to_nat i) s)
  else Panic.

(** The statement [s[i] = x]. *)
Definition slice_set (s : list byte) (i : Z) (x : byte) : outcome (list byte) :=
  slice_modify s i (fun _ => x).

(** [binary.BigEndian.PutUint64(b, v)] of Go's standard library: an early
    bounds check on [b[7]], then eight stores, most significant byte first. *)
Definition PutUint64 (b : list byte) (v : Z) : outcome (list byte) :=
  if Z.of_nat (length b) <=? 7 then Panic else
  b <~ slice_set b 0 (byte_of_Z (v ≫ 56)) ;;
  b <~ slice_set b 1 (byte_of_Z (v ≫ 48)) ;;
  b <~ slice_set b 2 (byte_of_Z (v ≫ 40)) ;;
  b <~ slice_set b 3 (byte_of_Z (v ≫ 32)) ;;
  b <~ slice_set b 4 (byte_of_Z (v ≫ 24)) ;;
  b <~ slice_set b 5 (byte_of_Z (v ≫ 16)) ;;
  b <~ slice_set b 6 (byte_of_Z (v ≫ 8)) ;;
  slice_set b 7 (byte_of_Z v).

(** Running [f] on the sub-slice [buf[off:]]: the stores of [f] land in
    [buf] itself, since the sub-slice shares its backing array. *)
Definition on_suffix (off : nat) (buf : list byte)
    (f : list byte -> outcome (list byte)) : outcome (list byte) :=
  if Z.of_nat (length buf) <? Z.of_nat off then Panic else
  tl <~ f (drop off buf) ;;
  Ret (take off buf ++ tl).

(** [bytes.Equal(a, b)]: same length and same bytes; a nil slice counts
    as an empty one. *)
Definition slice_bytes (s : option (list byte)) : list byte := default [] s.

Definition bytes_Equal (a b : option (list byte)) : bool :=
  bool_decide (slice_bytes a = slice_bytes b).

(** ** Addresses, cheques and peers *)

(** [common.Address] is a [[20]byte]; a well-formed address has exactly
    twenty bytes. *)
Definition Address : Type := list byte.

Definition AddressLength : nat := 20.

Definition is_address (a : Address) : Prop := length a = AddressLength.

(** [a.Bytes()]: the bytes of the address as a fresh slice. *)
Definition Address_Bytes (a : Address) : list byte := a.

(** Modelled from the spec: the declaration of [Cheque] (with its embedded
    [ChequeParams]) is not in [cheque.go]; the fields are the ones the
    methods below read, with the types of section 3 of the specification. *)
Record Cheque : Type := mkCheque {
  Contract : Address;
  Beneficiary : Address;
  Serial : Z;
  Amount : Z;
  Timeout : Z;
  Honey : Z;
  Signature : option (list byte);
}.

(** Modelled from the spec: the declaration of [Peer] is not in
    [cheque.go]; only the two fields read by [verifyChequeProperties]. *)
Record Peer : Type := mkPeer {
  contractAddress : Address;
  beneficiary : Address;
}.

(** A cheque whose fields are values of their Go types. *)
Record wf_cheque (c : Cheque) : Prop := mk_wf_cheque {
  wf_Contract : is_address (Contract c);
  wf_Beneficiary : is_address (Beneficiary c);
  wf_Serial : is_uint64 (Serial c);
  wf_Amount : is_uint64 (Amount c);
  wf_Timeout : is_uint64 (Timeout c);
  wf_Honey : is_uint64 (Honey c);
}.

Definition with_Signature (c : Cheque) (sig : option (list byte)) : Cheque :=
  {| Contract := Contract c; Beneficiary := Beneficiary c;
     Serial := Serial c; Amount := Amount c; Timeout := Timeout c;
     Honey := Honey c; Signature := sig |}.

(** ** The cryptographic primitives

    [crypto.Keccak256], [crypto.Sign], [crypto.SigToPub] and
    [crypto.PubkeyToAddress] belong to go-ethereum, and the key types to
    Go's [crypto/ecdsa]; the cheque code is parametric in them. *)
Class Crypto : Type := {
  PrivateKey : Type;
  PublicKey : Type;
  CryptoError : Type;
  Keccak256 : list byte -> list byte;
  crypto_Sign : list byte -> PrivateKey -> list byte + CryptoError;
  SigToPub : list byte -> list byte -> PublicKey + CryptoError;
  PubkeyToAddress : PublicKey -> Address;
  PrivateKey_PublicKey : PrivateKey -> PublicKey;
}.

(** ** The codec *)

Definition encodeForSignature (cheque : Cheque) : outcome (list byte) :=
  let serialBytes := make 32 in
  let amountBytes := make 32 in
  let timeoutBytes := make 32 in
  serialBytes <~ on_suffix 24 serialBytes (fun b => PutUint64 b (Serial cheque)) ;;
  amountBytes <~ on_suffix 24 amountBytes (fun b => PutUint64 b (Amount cheque)) ;;
  timeoutBytes <~ on_suffix 24 timeoutBytes (fun b => PutUint64 b (Timeout cheque)) ;;
  let input := Address_Bytes (Contract cheque) in
  let input := input ++ Address_Bytes (Beneficiary cheque) in
  let input := input ++ serialBytes in
  let input := input ++ amountBytes in
  let input := input ++ timeoutBytes in
  Ret input.

(** The prefix of [eth_sign]: byte 0x19, then the text, then a newline. *)
Definition signedMessagePrefix : list byte :=
  x19 :: list_byte_of_string "Ethereum Signed Message:" ++ [x0a].

(** The prefix followed by the decimal length of a 32-byte digest: the
    header of a personal message, "\x19Ethereum Signed Message:\n32". *)
Definition personalMessageHeader32 : list byte :=
  x19 :: list_byte_of_string "Ethereum Signed Message:" ++ [x0a; x33; x32].

(** The verb [%d] applied to a length. *)
Definition format_decimal (n : nat) : list byte :=
  list_byte_of_string (NilZero.string_of_uint (Nat.to_uint n)).

Section WithCrypto.
Context `{Crypto}.

(** ** Errors

    One constructor per error the file builds, carrying the values its
    message prints. *)
Inductive error : Type :=
| ErrSignatureNil
    (* "tried to verify signature on cheque with sig nil" *)
| ErrSignatureLength (len : nat)
    (* "signature has invalid length: %d" *)
| ErrCrypto (err : CryptoError)
    (* an error of crypto.Sign or crypto.SigToPub, returned as it is *)
| ErrInvalidChequeSignature
    (* the package-level error value of that name *)
| ErrWrongContract (expected was : Address)
    (* "wrong cheque parameters: expected contract: %x, was: %x" *)
| ErrWrongBeneficiary (expected was : Address)
    (* "wrong cheque parameters: expected beneficiary: %x, was: %x" *)
| ErrWrongTimeout (was : Z)
    (* "wrong cheque parameters: expected timeout to be 0, was: %d" *)
| ErrSerialNotLarger (last was : Z)
    (* "wrong cheque parameters: expected serial larger than %d, was: %d" *)
| ErrAmountNotLarger (last was : Z)
    (* "wrong cheque parameters: expected amount larger than %d, was: %d" *)
| ErrUnexpectedAmount (expected was : Z).
    (* "unexpected amount for honey, expected %d was %d" *)

(** ** The signer and verifier *)

Definition sigHash (cheque : Cheque) : outcome (list byte) :=
  encoded <~ encodeForSignature cheque ;;
  let input := Keccak256 encoded in
  let withPrefix :=
    signedMessagePrefix ++ format_decimal (length input) ++ input in
  Ret (Keccak256 withPrefix).

Definition VerifySig (cheque : Cheque) (expectedSigner : Address)
  : outcome (option error) :=
  sigHash <~ sigHash cheque ;;
  match Signature cheque with
  | None => Ret (Some ErrSignatureNil)
  | Some signature =>
      if negb (length signature =? 65)%nat
      then Ret (Some (ErrSignatureLength (length signature)))
      else
        let sig := make (length signature) in
        let sig := copy sig signature in
        sig <~ slice_modify sig (Z.of_nat (length sig) - 1)
                 (fun v => byte_sub v 27) ;;
        match SigToPub sigHash sig with
        | inr err => Ret (Some (ErrCrypto err))
        | inl pubKey =>
            if bool_decide (PubkeyToAddress pubKey <> expectedSigner)
            then Ret (Some ErrInvalidChequeSignature)
            else Ret None
        end
  end.

Definition Sign (cheque : Cheque) (prv : PrivateKey)
  : outcome (option (list byte) * option error) :=
  sigHash <~ sigHash cheque ;;
  match crypto_Sign sigHash prv with
  | inr err => Ret (None, Some (ErrCrypto err))
  | inl sig =>
      sig <~ slice_modify sig (Z.of_nat (length sig) - 1)
               (fun v => byte_add v 27) ;;
      Ret (Some sig, None)
  end.

Definition Equal (cheque other : Cheque) : bool :=
  if negb (Serial cheque =? Serial other) then false
  else if bool_decide (Beneficiary cheque <> Beneficiary other) then false
  else if negb (Amount cheque =? Amount other) then false
  else if negb (Timeout cheque =? Timeout other) then false
  else if negb (Honey cheque =? Honey other) then false
  else if negb (bytes_Equal (Signature cheque) (Signature other)) then false
  else true.

(** ** The progression validator *)

Definition verifyChequeProperties (cheque : Cheque) (p : Peer)
    (expectedBeneficiary : Address) : outcome (option error) :=
  if bool_decide (Contract cheque <> contractAddress p)
  then Ret (Some (ErrWrongContract (contractAddress p) (Contract cheque)))
  else
    err <~ VerifySig cheque (beneficiary p) ;;
    match err with
    | Some err => Ret (Some err)
    | None =>
        if bool_decide (Beneficiary cheque <> expectedBeneficiary)
        then Ret (Some (ErrWrongBeneficiary expectedBeneficiary
                          (Beneficiary cheque)))
        else if negb (Timeout cheque =? 0)
        then Ret (Some (ErrWrongTimeout (Timeout cheque)))
        else Ret None
    end.

(** The four conditions under which [verifyChequeProperties] accepts. *)
Definition properties_ok (c : Cheque) (p : Peer) (expected : Address) : Prop :=
  Contract c = contractAddress p /\
  VerifySig c (beneficiary p) = Ret None /\
  Beneficiary c = expected /\
  Timeout c = 0.

Definition verifyChequeAgainstLast (cheque : Cheque)
    (lastCheque : option Cheque) (expectedAmount : Z) : Z * option error :=
  (* the statements after the [if lastCheque != nil] block *)
  let compare (actualAmount : Z) : Z * option error :=
    if negb (expectedAmount =? actualAmount)
    then (0, Some (ErrUnexpectedAmount expectedAmount actualAmount))
    else (actualAmount, None) in
  let actualAmount := Amount cheque in
  match lastCheque with
  | Some lastCheque =>
      if Serial cheque <=? Serial lastCheque
      then (0, Some (ErrSerialNotLarger (Serial lastCheque) (Serial cheque)))
      else if Amount cheque <=? Amount lastCheque
      then (0, Some (ErrAmountNotLarger (Amount lastCheque) (Amount cheque)))
      else
        let actualAmount := sub64 actualAmount (Amount lastCheque) in
        compare actualAmount
  | None => compare actualAmount
  end.

(** The contract of the two ECDSA primitives this file relies on: a
    signature made by [crypto.Sign] has 65 bytes, and [crypto.SigToPub]
    recovers from it the public key of the signing key. *)
Definition sign_recoverable : Prop :=
  forall (hash : list byte) (prv : PrivateKey) (sig : list byte),
    crypto_Sign hash prv = inl sig ->
    length sig = 65%nat /\
    SigToPub hash sig = inl (PrivateKey_PublicKey prv).

End WithCrypto.

(** ** The encoding as the specification words it *)

(** The [n] bytes of [v], most significant first. *)
Definition be_bytes (n : nat) (v : Z) : list byte :=
  map (fun i => byte_of_Z (v ≫ (8 * Z.of_nat i))) (rev (seq 0 n)).

(** The number a big-endian byte sequence stands for. *)
Fixpoint be_value (bs : list byte) : Z :=
  match bs with
  | [] => 0
  | b :: rest => byte_to_Z b * 256 ^ Z.of_nat (length rest) + be_value rest
  end.

(** Section 4.1: contract, beneficiary, then serial, amount and timeout as
    32-byte big-endian integers. *)
Definition spec_encoding (c : Cheque) : list byte :=
  Contract c ++ Beneficiary c
    ++ be_bytes 32 (Serial c) ++ be_bytes 32 (Amount c)
    ++ be_bytes 32 (Timeout c).

(** The five encoded fields of a cheque. *)
Definition encoded_fields (c : Cheque) : Address * Address * Z * Z * Z :=
  (Contract c, Beneficiary c, Serial c, Amount c, Timeout c).

(** ** A small executable instance of the primitives

    Keys are single bytes; a signature is 32 copies of the key, the first
    32 bytes of the (zero-padded) hash and a recovery byte 0. Recovery
    accepts recovery bytes 0 and 1 only and checks the hash part. It runs
    the definitions above on concrete cheques. *)
Module ModelCrypto.

Definition pad32 (data : list byte) : list byte := take 32 (data ++ make 32).

Definition keccak (data : list byte) : list byte :=
  pad32 (byte_of_Z (Z.of_nat (length data)) :: rev data).

Definition sign (hash : list byte) (prv : byte) : list byte + unit :=
  inl (replicate 32 prv ++ pad32 hash ++ [x00]).

Definition recover (hash sig : list byte) : byte + unit :=
  match sig !! 0%nat with
  | Some k =>
      if bool_decide (sig = replicate 32 k ++ pad32 hash ++ [x00])
         || bool_decide (sig = replicate 32 k ++ pad32 hash ++ [x01])
      then inl k else inr tt
  | None => inr tt
  end.

Definition address_of (pub : byte) : Address := replicate 20 pub.

#[export] Instance model : Crypto := {|
  PrivateKey := byte;
  PublicKey := byte;
  CryptoError := unit;
  Keccak256 := keccak;
  crypto_Sign := sign;
  SigToPub := recover;
  PubkeyToAddress := address_of;
  PrivateKey_PublicKey := fun prv => prv;
|}.

Definition addrC : Address := replicate 20 x0c.
Definition addrB : Address := replicate 20 x0b.

(** Scenario A of the specification, before signing. *)
Definition chequeA : Cheque :=
  {| Contract := addrC; Beneficiary := addrB; Serial := 1; Amount := 100;
     Timeout := 0; Honey := 100; Signature := None |}.

(** Scenario B: the successor of [chequeA]. *)
Definition chequeB : Cheque :=
  {| Contract := addrC; Beneficiary := addrB; Serial := 2; Amount := 150;
     Timeout := 0; Honey := 50; Signature := None |}.

Definition key : byte := x2a.

Definition signed (c : Cheque) : Cheque :=
  match Sign c key with
  | Ret (sig, _) => with_Signature c sig
  | Panic => c
  end.

(** [chequeA] drawn on another contract. *)
Definition chequeA_other_contract : Cheque :=
  {| Contract := addrB; Beneficiary := addrB; Serial := 1; Amount := 100;
     Timeout := 0; Honey := 100; Signature := None |}.

(** [chequeA] with another honey value and some signature bytes. *)
Definition chequeA_other_honey : Cheque :=
  {| Contract := addrC; Beneficiary := addrB; Serial := 1; Amount := 100;
     Timeout := 0; Honey := 7; Signature := Some [x01; x02] |}.

(** Scenario C: same serial as [chequeB], larger amount. *)
Definition chequeC : Cheque :=
  {| Contract := addrC; Beneficiary := addrB; Serial := 2; Amount := 200;
     Timeout := 0; Honey := 50; Signature := None |}.

(** Scenario D: a timeout of 5. *)
Definition chequeD : Cheque :=
  {| Contract := addrC; Beneficiary := addrB; Serial := 1; Amount := 100;
     Timeout := 5; Honey := 100; Signature := None |}.

Definition hashA : list byte :=
  Eval vm_compute in
    match sigHash chequeA with Ret h => h | Panic => [] end.

Definition rawA : list byte := replicate 32 key ++ pad32 hashA ++ [x00].

Definition peerA : Peer :=
  {| contractAddress := addrC; beneficiary := address_of key |}.

(** The signature [Sign] makes for [chequeA] with [key]: recovery byte 27. *)
Definition sigA : list byte := replicate 32 key ++ pad32 hashA ++ [x1b].

(** A third cheque of the channel, after [chequeB]. *)
Definition chequeE : Cheque :=
  {| Contract := addrC; Beneficiary := addrB; Serial := 3; Amount := 175;
     Timeout := 0; Honey := 25; Signature := None |}.

(** [chequeA], signed, with its honey changed afterwards. *)
Definition signedA_other_honey : Cheque :=
  {| Contract := addrC; Beneficiary := addrB; Serial := 1; Amount := 100;
     Timeout := 0; Honey := 7; Signature := Signature (signed chequeA) |}.

(** [chequeA] with a signature that is empty but not nil. *)
Definition chequeA_empty_signature : Cheque :=
  with_Signature chequeA (Some []).

(** [chequeB] with a signature that is empty but not nil. *)
Definition chequeB_empty_signature : Cheque :=
  with_Signature chequeB (Some []).

End ModelCrypto.

(** A 32-byte field [f] holds the uint64 [v]: the high-order 24 bytes are
    zero and the low 8 bytes, like the whole field, read back as [v]. *)
Definition uint64_field (v : Z) (f : list byte) : Prop :=
  length f = 32%nat /\
  take 24 f = replicate 24 x00 /\
  be_value (drop 24 f) = v /\
  be_value f = v.

(** * Properties *)

(** ** Bytes *)

Lemma byte_to_Z_range (b : byte) : 0 <= byte_to_Z b < 256.
Proof.
  unfold byte_to_Z. pose proof (Byte.to_N_bounded b). lia.
Qed.

Lemma byte_to_of_Z (z : Z) : byte_to_Z (byte_of_Z z) = z mod 256.
Proof.
  unfold byte_to_Z, byte_of_Z.
  assert (Hr : 0 <= z mod 256 < 256) by (apply Z.mod_pos_bound; lia).
  destruct (Byte.of_N (Z.to_N (z mod 256))) as [b|] eqn:E.
  - apply Byte.to_of_N in E. simpl. rewrite E. lia.
  - apply Byte.of_N_None_iff in E. lia.
Qed.

Lemma byte_of_to_Z (b : byte) : byte_of_Z (byte_to_Z b) = b.
Proof.
  pose proof (byte_to_Z_range b) as Hr.
  unfold byte_of_Z. rewrite Z.mod_small by lia.
  unfold byte_to_Z. rewrite N2Z.id, Byte.of_to_N. reflexivity.
Qed.

Lemma byte_of_Z_mod (z : Z) : byte_of_Z (z mod 256) = byte_of_Z z.
Proof.
  unfold byte_of_Z. rewrite Z.mod_mod by lia. reflexivity.
Qed.

(** Subtracting what was added gives the byte back, wrap-around or not. *)
Lemma byte_sub_add (b : byte) (k : Z) : byte_sub (byte_add b k) k = b.
Proof.
  unfold byte_sub, byte_add. rewrite byte_to_of_Z.
  rewrite <- byte_of_Z_mod, Zminus_mod_idemp_l.
  replace (byte_to_Z b + k - k) with (byte_to_Z b) by lia.
  rewrite byte_of_Z_mod. apply byte_of_to_Z.
Qed.

Lemma byte_add_small (b : byte) (k : Z) :
  0 <= byte_to_Z b + k < 256 -> byte_to_Z (byte_add b k) = byte_to_Z b + k.
Proof.
  intros Hr. unfold byte_add. rewrite byte_to_of_Z. apply Z.mod_small, Hr.
Qed.

(** ** Slices *)

Lemma copy_make (s : list byte) : copy (make (length s)) s = s.
Proof.
  unfold copy, make. rewrite length_replicate, Nat.min_id.
  rewrite firstn_all, skipn_all2 by (rewrite length_replicate; lia).
  apply app_nil_r.
Qed.

Lemma slice_modify_last (s : list byte) (b : byte) (f : byte -> byte) :
  slice_modify (s ++ [b]) (Z.of_nat (length (s ++ [b])) - 1) f
  = Ret (s ++ [f b]).
Proof.
  unfold slice_modify. rewrite length_app. simpl length.
  replace (Z.of_nat (length s + 1) - 1) with (Z.of_nat (length s)) by lia.
  rewrite Nat2Z.id.
  replace ((0 <=? Z.of_nat (length s))
           && (Z.of_nat (length s) <? Z.of_nat (length s + 1)))
    with true
    by (symmetry; apply andb_true_iff; split;
        [apply Z.leb_le | apply Z.ltb_lt]; lia).
  f_equal. rewrite alter_app_r_alt by lia.
  now rewrite Nat.sub_diag.
Qed.

Lemma nonempty_snoc (s : list byte) :
  s <> [] -> exists s' b, s = s' ++ [b].
Proof.
  intros Hne. destruct (exists_last Hne) as (s' & b & E). eauto.
Qed.

(** ** Big-endian byte sequences *)

Lemma be_bytes_S (n : nat) (v : Z) :
  be_bytes (S n) v = byte_of_Z (v ≫ (8 * Z.of_nat n)) :: be_bytes n v.
Proof.
  unfold be_bytes. rewrite seq_S, rev_app_distr. reflexivity.
Qed.

Lemma length_be_bytes (n : nat) (v : Z) : length (be_bytes n v) = n.
Proof.
  unfold be_bytes. now rewrite length_map, length_rev, length_seq.
Qed.

(** Reading back the [n] low-order bytes of [v] gives [v] modulo [256^n]. *)
Lemma be_value_be_bytes (n : nat) (v : Z) :
  be_value (be_bytes n v) = v mod 256 ^ Z.of_nat n.
Proof.
  induction n as [|n IH].
  - simpl. now rewrite Z.mod_1_r.
  - rewrite be_bytes_S. simpl be_value.
    rewrite length_be_bytes, IH, byte_to_of_Z.
    rewrite Z.shiftr_div_pow2 by lia.
    replace (2 ^ (8 * Z.of_nat n)) with (256 ^ Z.of_nat n)
      by (change 256 with (2 ^ 8); rewrite <- Z.pow_mul_r by lia;
          reflexivity).
    rewrite Nat2Z.inj_succ, Z.pow_succ_r by lia.
    assert (0 < 256 ^ Z.of_nat n) by (apply Z.pow_pos_nonneg; lia).
    rewrite (Z.mul_comm 256), Z.rem_mul_r by lia. lia.
Qed.

Lemma be_value_be_bytes_uint64 (n : nat) (v : Z) :
  (8 <= n)%nat -> is_uint64 v -> be_value (be_bytes n v) = v.
Proof.
  intros Hn [Hlo Hhi]. rewrite be_value_be_bytes. apply Z.mod_small.
  split; [exact Hlo|]. eapply Z.lt_le_trans; [exact Hhi|].
  unfold uint64_modulus. change (2 ^ 64) with (256 ^ 8).
  apply Z.pow_le_mono_r; lia.
Qed.

Lemma byte_of_Z_shiftr_high (v k : Z) :
  is_uint64 v -> 64 <= k -> byte_of_Z (v ≫ k) = x00.
Proof.
  intros [Hlo Hhi] Hk. rewrite Z.shiftr_div_pow2 by lia.
  rewrite Z.div_small; [reflexivity|].
  split; [exact Hlo|]. eapply Z.lt_le_trans; [exact Hhi|].
  apply Z.pow_le_mono_r; lia.
Qed.

(** A uint64 written as a 32-byte big-endian integer: 24 zero bytes, then
    its own eight bytes. *)
Lemma be_bytes_32_uint64 (v : Z) :
  is_uint64 v -> be_bytes 32 v = replicate 24 x00 ++ be_bytes 8 v.
Proof.
  intros Hv.
  do 24 (rewrite be_bytes_S, (byte_of_Z_shiftr_high v) by (assumption || lia)).
  reflexivity.
Qed.

Lemma uint64_field_be_bytes (v : Z) :
  is_uint64 v -> uint64_field v (be_bytes 32 v).
Proof.
  intros Hv. unfold uint64_field.
  split; [apply length_be_bytes|].
  rewrite be_bytes_32_uint64 at 1 2 by assumption.
  split; [reflexivity|].
  split; [|apply be_value_be_bytes_uint64; [lia|assumption]].
  change (drop 24 (replicate 24 x00 ++ be_bytes 8 v)) with (be_bytes 8 v).
  apply be_value_be_bytes_uint64; [lia|assumption].
Qed.

(** ** The codec *)

Lemma PutUint64_make8 (v : Z) :
  PutUint64 (make 8) v = Ret (be_bytes 8 v).
Proof. reflexivity. Qed.

(** The encoder never panics; what it writes, for any field values. *)
Lemma encodeForSignature_Ret (c : Cheque) :
  encodeForSignature c
  = Ret (Contract c ++ Beneficiary c
           ++ (make 24 ++ be_bytes 8 (Serial c))
           ++ (make 24 ++ be_bytes 8 (Amount c))
           ++ (make 24 ++ be_bytes 8 (Timeout c))).
Proof.
  unfold encodeForSignature, on_suffix.
  change (drop 24 (make 32)) with (make 8).
  change (take 24 (make 32)) with (make 24).
  rewrite !PutUint64_make8.
  change (Z.of_nat (length (make 32)) <? Z.of_nat 24) with false.
  cbn [obind]. unfold Address_Bytes. now rewrite <- !app_assoc.
Qed.

Lemma encodeForSignature_spec (c : Cheque) :
  is_uint64 (Serial c) -> is_uint64 (Amount c) -> is_uint64 (Timeout c) ->
  encodeForSignature c = Ret (spec_encoding c).
Proof.
  intros Hs Ha Ht. rewrite encodeForSignature_Ret. unfold spec_encoding.
  now rewrite !be_bytes_32_uint64 by assumption.
Qed.

Lemma length_spec_encoding (c : Cheque) :
  is_address (Contract c) -> is_address (Beneficiary c) ->
  length (spec_encoding c) = 136%nat.
Proof.
  unfold is_address, spec_encoding. intros Hc Hb.
  rewrite !length_app, !length_be_bytes, Hc, Hb. reflexivity.
Qed.

Lemma split_at {A : Type} (n : nat) (a b : list A) :
  length a = n -> take n (a ++ b) = a /\ drop n (a ++ b) = b.
Proof.
  intros <-. split; [apply take_app_length | apply drop_app_length].
Qed.

Lemma be_bytes_32_inj (v w : Z) :
  is_uint64 v -> is_uint64 w -> be_bytes 32 v = be_bytes 32 w -> v = w.
Proof.
  intros Hv Hw E. apply (f_equal be_value) in E.
  now rewrite !be_value_be_bytes_uint64 in E by (lia || assumption).
Qed.

(** Equal encodings come from equal fields. *)
Lemma spec_encoding_inj (c1 c2 : Cheque) :
  wf_cheque c1 -> wf_cheque c2 ->
  spec_encoding c1 = spec_encoding c2 -> encoded_fields c1 = encoded_fields c2.
Proof.
  intros [Hc1 Hb1 Hs1 Ha1 Ht1 _] [Hc2 Hb2 Hs2 Ha2 Ht2 _] E.
  unfold spec_encoding, is_address in *.
  apply app_inj_1 in E as [Ec E]; [|congruence].
  apply app_inj_1 in E as [Eb E]; [|congruence].
  apply app_inj_1 in E as [Es E]; [|now rewrite !length_be_bytes].
  apply app_inj_1 in E as [Ea Et]; [|now rewrite !length_be_bytes].
  apply be_bytes_32_inj in Es, Ea, Et; try assumption.
  unfold encoded_fields. congruence.
Qed.

Lemma wf_chequeA : wf_cheque ModelCrypto.chequeA.
Proof.
  split; unfold is_address, is_uint64, uint64_modulus; simpl;
    try reflexivity; lia.
Qed.

Lemma wf_chequeB : wf_cheque ModelCrypto.chequeB.
Proof.
  split; unfold is_address, is_uint64, uint64_modulus; simpl;
    try reflexivity; lia.
Qed.

(** C6. For every (well-formed) cheque, [encodeForSignature] returns the
    20 bytes of the contract address, the 20 bytes of the beneficiary
    address, and then serial, amount and timeout, each as a 32-byte
    big-endian integer whose 24 high-order bytes are zero and whose low 8
    bytes hold the uint64 value; the result has 136 bytes. *)
Theorem encodeForSignature_layout (c : Cheque) :
  wf_cheque c ->
  exists enc : list byte,
    encodeForSignature c = Ret enc /\
    enc = spec_encoding c /\
    length enc = 136%nat /\
    take 20 enc = Contract c /\
    take 20 (drop 20 enc) = Beneficiary c /\
    uint64_field (Serial c) (take 32 (drop 40 enc)) /\
    uint64_field (Amount c) (take 32 (drop 72 enc)) /\
    uint64_field (Timeout c) (drop 104 enc).
Proof.
  intros [Hc Hb Hs Ha Ht _]. exists (spec_encoding c).
  split; [now apply encodeForSignature_spec|].
  split; [reflexivity|].
  split; [now apply length_spec_encoding|].
  unfold spec_encoding, is_address, AddressLength in *.
  pose proof (length_be_bytes 32 (Serial c)) as Ls.
  pose proof (length_be_bytes 32 (Amount c)) as La.
  destruct (split_at 20 (Contract c)
              (Beneficiary c ++ be_bytes 32 (Serial c)
                 ++ be_bytes 32 (Amount c) ++ be_bytes 32 (Timeout c)) Hc)
    as [T0 D0].
  destruct (split_at 20 (Beneficiary c)
              (be_bytes 32 (Serial c)
                 ++ be_bytes 32 (Amount c) ++ be_bytes 32 (Timeout c)) Hb)
    as [T1 D1].
  destruct (split_at 32 (be_bytes 32 (Serial c))
              (be_bytes 32 (Amount c) ++ be_bytes 32 (Timeout c)) Ls)
    as [T2 D2].
  destruct (split_at 32 (be_bytes 32 (Amount c))
              (be_bytes 32 (Timeout c)) La)
    as [T3 D3].
  split; [exact T0|].
  split; [now rewrite D0|].
  change 104%nat with (20 + (20 + (32 + 32)))%nat.
  change 72%nat with (20 + (20 + 32))%nat.
  change 40%nat with (20 + 20)%nat.
  rewrite <- !drop_drop, !D0, !D1, !D2, D3, T2, T3.
  split; [|split]; apply uint64_field_be_bytes; assumption.
Qed.


(** C7. [encodeForSignature] is injective on the encoded fields: two
    (well-formed) cheques whose (contract, beneficiary, serial, amount,
    timeout) tuples differ have different encodings. *)
Theorem encodeForSignature_injective (c1 c2 : Cheque) :
  wf_cheque c1 -> wf_cheque c2 ->
  encoded_fields c1 <> encoded_fields c2 ->
  encodeForSignature c1 <> encodeForSignature c2.
Proof.
  intros W1 W2 Hne E. apply Hne.
  destruct W1 as [Hc1 Hb1 Hs1 Ha1 Ht1 Hh1], W2 as [Hc2 Hb2 Hs2 Ha2 Ht2 Hh2].
  rewrite !encodeForSignature_spec in E by assumption.
  injection E as E. apply spec_encoding_inj; [split|split|]; assumption.
Qed.


(** ** The signer and verifier *)

Section Properties.
Context `{Crypto}.

(** The text that is hashed and signed. *)
Lemma sigHash_Ret (c : Cheque) :
  exists encoded : list byte,
    encodeForSignature c = Ret encoded /\
    sigHash c
    = Ret (Keccak256
             (signedMessagePrefix
                ++ format_decimal (length (Keccak256 encoded))
                ++ Keccak256 encoded)).
Proof.
  eexists. split; [apply encodeForSignature_Ret|].
  unfold sigHash. rewrite encodeForSignature_Ret. reflexivity.
Qed.

Lemma sigHash_total (c : Cheque) : exists h : list byte, sigHash c = Ret h.
Proof.
  destruct (sigHash_Ret c) as (enc & _ & E). eauto.
Qed.

Lemma encodeForSignature_fields (c1 c2 : Cheque) :
  encoded_fields c1 = encoded_fields c2 ->
  encodeForSignature c1 = encodeForSignature c2.
Proof.
  unfold encoded_fields. intros E. injection E as Ec Eb Es Ea Et.
  rewrite !encodeForSignature_Ret. congruence.
Qed.

Lemma sigHash_fields (c1 c2 : Cheque) :
  encoded_fields c1 = encoded_fields c2 -> sigHash c1 = sigHash c2.
Proof.
  intros E. unfold sigHash. now rewrite (encodeForSignature_fields c1 c2 E).
Qed.

Lemma sigHash_with_Signature (c : Cheque) (sig : option (list byte)) :
  sigHash (with_Signature c sig) = sigHash c.
Proof. now apply sigHash_fields. Qed.

(** What [VerifySig] does with a signature of 65 bytes, the last of which
    is [v]: recovery runs on the copy whose last byte is [v - 27]. *)
Lemma VerifySig_65 (c : Cheque) (expectedSigner : Address)
    (rs : list byte) (v : byte) (h : list byte) :
  Signature c = Some (rs ++ [v]) -> length (rs ++ [v]) = 65%nat ->
  sigHash c = Ret h ->
  VerifySig c expectedSigner
  = Ret match SigToPub h (rs ++ [byte_sub v 27]) with
        | inr err => Some (ErrCrypto err)
        | inl pubKey =>
            if bool_decide (PubkeyToAddress pubKey <> expectedSigner)
            then Some ErrInvalidChequeSignature
            else None
        end.
Proof.
  intros Hsig Hlen Hh. unfold VerifySig. rewrite Hh, Hsig. cbn [obind].
  replace (negb (length (rs ++ [v]) =? 65)%nat) with false
    by now rewrite Hlen.
  rewrite copy_make, slice_modify_last. cbn [obind].
  destruct (SigToPub h (rs ++ [byte_sub v 27])) as [pubKey|err];
    [destruct (bool_decide _)|]; reflexivity.
Qed.

Lemma VerifySig_nil (c : Cheque) (expectedSigner : Address) :
  Signature c = None -> VerifySig c expectedSigner = Ret (Some ErrSignatureNil).
Proof.
  intros Hsig. unfold VerifySig.
  destruct (sigHash_total c) as [h ->]. cbn [obind]. now rewrite Hsig.
Qed.

Lemma VerifySig_bad_length (c : Cheque) (expectedSigner : Address)
    (s : list byte) :
  Signature c = Some s -> length s <> 65%nat ->
  VerifySig c expectedSigner = Ret (Some (ErrSignatureLength (length s))).
Proof.
  intros Hsig Hlen. unfold VerifySig.
  destruct (sigHash_total c) as [h ->]. cbn [obind]. rewrite Hsig.
  apply Nat.eqb_neq in Hlen. now rewrite Hlen.
Qed.

Lemma length_65_snoc (s : list byte) :
  length s = 65%nat -> exists rs v, s = rs ++ [v].
Proof.
  intros Hlen. apply nonempty_snoc. intros ->. discriminate Hlen.
Qed.

(** [VerifySig] always returns: its one indexing is guarded by the length
    check. *)
Lemma VerifySig_total (c : Cheque) (expectedSigner : Address) :
  exists r : option error, VerifySig c expectedSigner = Ret r.
Proof.
  destruct (Signature c) as [s|] eqn:Hsig.
  - destruct (Nat.eq_dec (length s) 65%nat) as [Hlen|Hlen].
    + destruct (length_65_snoc s Hlen) as (rs & v & ->).
      destruct (sigHash_total c) as [h Hh].
      rewrite (VerifySig_65 c expectedSigner rs v h Hsig Hlen Hh). eauto.
    + rewrite (VerifySig_bad_length c expectedSigner s Hsig Hlen). eauto.
  - rewrite (VerifySig_nil c expectedSigner Hsig). eauto.
Qed.

(** C4. [VerifySig] returns an explicit error when the signature is nil,
    and an explicit error when its length is not 65; these two results do
    not depend on the recovery primitive. Any other result means that the
    signature is present and 65 bytes long, and then the result is the one
    recovery gives on the copy with the last byte lowered by 27. *)
Theorem VerifySig_rejects_malformed (c : Cheque) (expectedSigner : Address) :
  (Signature c = None ->
   VerifySig c expectedSigner = Ret (Some ErrSignatureNil)) /\
  (forall s : list byte,
     Signature c = Some s -> length s <> 65%nat ->
     VerifySig c expectedSigner = Ret (Some (ErrSignatureLength (length s)))) /\
  (forall r : option error,
     VerifySig c expectedSigner = Ret r ->
     r <> Some ErrSignatureNil ->
     (forall n : nat, r <> Some (ErrSignatureLength n)) ->
     exists (rs : list byte) (v : byte) (h : list byte),
       Signature c = Some (rs ++ [v]) /\ length (rs ++ [v]) = 65%nat /\
       sigHash c = Ret h /\
       r = match SigToPub h (rs ++ [byte_sub v 27]) with
           | inr err => Some (ErrCrypto err)
           | inl pubKey =>
               if bool_decide (PubkeyToAddress pubKey <> expectedSigner)
               then Some ErrInvalidChequeSignature
               else None
           end).
Proof.
  split; [apply VerifySig_nil|]. split; [apply VerifySig_bad_length|].
  intros r Hr Hnil Hlen.
  destruct (Signature c) as [s|] eqn:Hsig.
  - destruct (Nat.eq_dec (length s) 65%nat) as [E|E].
    + destruct (length_65_snoc s E) as (rs & v & ->).
      destruct (sigHash_total c) as [h Hh].
      exists rs, v, h. repeat (split; [easy|]).
      rewrite (VerifySig_65 c expectedSigner rs v h Hsig E Hh) in Hr.
      now injection Hr as <-.
    + rewrite (VerifySig_bad_length c expectedSigner s Hsig E) in Hr.
      injection Hr as <-. now destruct (Hlen (length s)).
  - rewrite (VerifySig_nil c expectedSigner Hsig) in Hr.
    now injection Hr as <-.
Qed.

Lemma Sign_Ret (c : Cheque) (prv : PrivateKey) (h rs : list byte) (v : byte) :
  sigHash c = Ret h -> crypto_Sign h prv = inl (rs ++ [v]) ->
  Sign c prv = Ret (Some (rs ++ [byte_add v 27]), None).
Proof.
  intros Hh Hraw. unfold Sign. rewrite Hh. cbn [obind]. rewrite Hraw.
  now rewrite slice_modify_last.
Qed.

(** C3. With primitives that meet their contract ([sign_recoverable]) and
    a key with which [crypto.Sign] succeeds, [Sign] returns the raw
    signature with 27 added to its last byte (27 or 28 for a raw recovery
    byte of 0 or 1), 65 bytes in all, and [VerifySig] of the cheque carrying
    that signature, against the address derived from the key, succeeds. *)
Theorem Sign_VerifySig_roundtrip (c : Cheque) (prv : PrivateKey)
    (h raw : list byte) :
  sign_recoverable ->
  sigHash c = Ret h ->
  crypto_Sign h prv = inl raw ->
  exists (rs : list byte) (v : byte),
    raw = rs ++ [v] /\
    Sign c prv = Ret (Some (rs ++ [byte_add v 27]), None) /\
    length (rs ++ [byte_add v 27]) = 65%nat /\
    (byte_to_Z v <= 1 -> byte_to_Z (byte_add v 27) = byte_to_Z v + 27) /\
    VerifySig (with_Signature c (Some (rs ++ [byte_add v 27])))
      (PubkeyToAddress (PrivateKey_PublicKey prv)) = Ret None.
Proof.
  intros Hcrypto Hh Hraw.
  destruct (Hcrypto h prv raw Hraw) as [Hlen Hrec].
  destruct (length_65_snoc raw Hlen) as (rs & v & ->).
  exists rs, v. split; [reflexivity|].
  split; [now apply (Sign_Ret c prv h)|].
  assert (Hlen' : length (rs ++ [byte_add v 27]) = 65%nat)
    by (rewrite length_app in *; exact Hlen).
  split; [exact Hlen'|].
  split.
  { intros Hv. apply byte_add_small. pose proof (byte_to_Z_range v). lia. }
  rewrite (VerifySig_65 _ _ rs (byte_add v 27) h);
    [| reflexivity | exact Hlen' | now rewrite sigHash_with_Signature].
  rewrite byte_sub_add, Hrec.
  now rewrite bool_decide_eq_false_2 by (intros Hne; now apply Hne).
Qed.

(** C9. Two cheques that agree on contract, beneficiary, serial, amount and
    timeout, whatever their honey and signature, have the same encoding and
    the same hash. *)
Theorem encoding_ignores_honey_and_signature (c1 c2 : Cheque) :
  encoded_fields c1 = encoded_fields c2 ->
  encodeForSignature c1 = encodeForSignature c2 /\
  sigHash c1 = sigHash c2.
Proof.
  intros E. split; [now apply encodeForSignature_fields|].
  now apply sigHash_fields.
Qed.

(** ** The progression validator *)

Lemma verifyChequeProperties_total (c : Cheque) (p : Peer)
    (expected : Address) :
  exists r : option error, verifyChequeProperties c p expected = Ret r.
Proof.
  unfold verifyChequeProperties.
  destruct (bool_decide _); [eauto|].
  destruct (VerifySig_total c (beneficiary p)) as [[err|] ->]; cbn [obind];
    [eauto|].
  destruct (bool_decide _); [eauto|]. destruct (negb _); eauto.
Qed.

Lemma verifyChequeProperties_ok (c : Cheque) (p : Peer) (expected : Address) :
  verifyChequeProperties c p expected = Ret None <-> properties_ok c p expected.
Proof.
  unfold verifyChequeProperties, properties_ok.
  destruct (decide (Contract c = contractAddress p)) as [Ec|Ec].
  2:{ rewrite bool_decide_eq_true_2 by exact Ec.
      split; [discriminate|]. now intros [? _]. }
  rewrite bool_decide_eq_false_2 by (intros Hne; now apply Hne).
  destruct (VerifySig_total c (beneficiary p)) as [[err|] Hv]; rewrite Hv;
    cbn [obind].
  { split; [discriminate|]. intros (_ & Hv' & _). discriminate Hv'. }
  destruct (decide (Beneficiary c = expected)) as [Eb|Eb].
  2:{ rewrite bool_decide_eq_true_2 by exact Eb.
      split; [discriminate|]. now intros (_ & _ & ? & _). }
  rewrite bool_decide_eq_false_2 by (intros Hne; now apply Hne).
  destruct (Z.eqb_spec (Timeout c) 0) as [Et|Et]; cbn [negb].
  - easy.
  - split; [discriminate|]. now intros (_ & _ & _ & ?).
Qed.

(** C2. [verifyChequeProperties] succeeds exactly when the contract is the
    peer's, [VerifySig] against the peer's beneficiary succeeds, the
    beneficiary is the expected one and the timeout is 0; otherwise it
    returns an error; a timeout of 5 with the other three conditions met is
    refused with the timeout error. *)
Theorem verifyChequeProperties_iff (c : Cheque) (p : Peer)
    (expectedBeneficiary : Address) :
  (verifyChequeProperties c p expectedBeneficiary = Ret None
   <-> properties_ok c p expectedBeneficiary) /\
  (~ properties_ok c p expectedBeneficiary ->
   exists err : error,
     verifyChequeProperties c p expectedBeneficiary = Ret (Some err)) /\
  (Contract c = contractAddress p ->
   VerifySig c (beneficiary p) = Ret None ->
   Beneficiary c = expectedBeneficiary ->
   Timeout c = 5 ->
   verifyChequeProperties c p expectedBeneficiary
   = Ret (Some (ErrWrongTimeout 5))).
Proof.
  split; [apply verifyChequeProperties_ok|]. split.
  - intros Hno.
    destruct (verifyChequeProperties_total c p expectedBeneficiary)
      as [[err|] Hr]; [eauto|].
    now apply verifyChequeProperties_ok in Hr.
  - intros Ec Hv Eb Et. unfold verifyChequeProperties.
    rewrite bool_decide_eq_false_2 by (intros Hne; now apply Hne).
    rewrite Hv. cbn [obind].
    rewrite bool_decide_eq_false_2 by (intros Hne; now apply Hne).
    now rewrite Et.
Qed.

Lemma sub64_exact (a b : Z) :
  is_uint64 a -> is_uint64 b -> b < a -> sub64 a b = a - b.
Proof.
  unfold is_uint64, sub64. intros Ha Hb Hlt. apply Z.mod_small. lia.
Qed.

Lemma verifyChequeAgainstLast_increasing (c l : Cheque) (e : Z) :
  Serial l < Serial c -> Amount l < Amount c ->
  verifyChequeAgainstLast c (Some l) e
  = if negb (e =? sub64 (Amount c) (Amount l))
    then (0, Some (ErrUnexpectedAmount e (sub64 (Amount c) (Amount l))))
    else (sub64 (Amount c) (Amount l), None).
Proof.
  intros Hs Ha. unfold verifyChequeAgainstLast.
  destruct (Z.leb_spec (Serial c) (Serial l)); [lia|].
  destruct (Z.leb_spec (Amount c) (Amount l)); [lia|]. reflexivity.
Qed.

(** C1. Against a previous cheque, [verifyChequeAgainstLast] fails (with
    the serial or the amount error) whenever the serial or the amount does
    not increase; when both increase and the difference of the amounts is
    the expected amount, it succeeds and returns that difference. *)
Theorem verifyChequeAgainstLast_monotonic (c l : Cheque) (expectedAmount : Z) :
  is_uint64 (Amount c) -> is_uint64 (Amount l) ->
  (Serial c <= Serial l \/ Amount c <= Amount l ->
   exists err : error,
     verifyChequeAgainstLast c (Some l) expectedAmount = (0, Some err) /\
     (err = ErrSerialNotLarger (Serial l) (Serial c) \/
      err = ErrAmountNotLarger (Amount l) (Amount c))) /\
  (Serial c > Serial l -> Amount c > Amount l ->
   Amount c - Amount l = expectedAmount ->
   verifyChequeAgainstLast c (Some l) expectedAmount
   = (Amount c - Amount l, None)).
Proof.
  intros Hc Hl. split.
  - intros Hle. unfold verifyChequeAgainstLast.
    destruct (Z.leb_spec (Serial c) (Serial l)); [eauto|].
    destruct (Z.leb_spec (Amount c) (Amount l)); [eauto|]. lia.
  - intros Hs Ha He.
    rewrite verifyChequeAgainstLast_increasing by lia.
    rewrite sub64_exact by (assumption || lia).
    now rewrite <- He, Z.eqb_refl.
Qed.

(** C8. With no previous cheque nothing is compared with a predecessor:
    the amount checked against the expectation is the cheque's own amount,
    the call succeeds, returning that amount, exactly when it is the
    expected one, and the serial plays no part. *)
Theorem verifyChequeAgainstLast_first (c : Cheque) (expectedAmount : Z) :
  (verifyChequeAgainstLast c None expectedAmount = (Amount c, None)
   <-> Amount c = expectedAmount) /\
  (snd (verifyChequeAgainstLast c None expectedAmount) = None
   <-> Amount c = expectedAmount) /\
  (Amount c <> expectedAmount ->
   verifyChequeAgainstLast c None expectedAmount
   = (0, Some (ErrUnexpectedAmount expectedAmount (Amount c)))) /\
  (forall c' : Cheque,
     Amount c' = Amount c ->
     verifyChequeAgainstLast c' None expectedAmount
     = verifyChequeAgainstLast c None expectedAmount).
Proof.
  unfold verifyChequeAgainstLast.
  repeat split.
  - destruct (Z.eqb_spec expectedAmount (Amount c)); cbn [negb];
      [congruence | discriminate].
  - intros <-. now rewrite Z.eqb_refl.
  - destruct (Z.eqb_spec expectedAmount (Amount c)); cbn [negb snd];
      [congruence | discriminate].
  - intros <-. now rewrite Z.eqb_refl.
  - intros Hne. destruct (Z.eqb_spec expectedAmount (Amount c));
      [congruence | reflexivity].
  - intros c' ->. reflexivity.
Qed.

(** C10. Against a previous cheque (uint64 amounts) the subtraction of
    [verifyChequeAgainstLast] never wraps, because the two checks come
    first: whenever the call gets as far as an actual amount, returned on
    success or reported in the unexpected-amount error, serial and amount
    are strictly larger than the previous ones and the actual amount is the
    exact difference, positive and below 2^64; where the difference would
    wrap (amount not larger) the call stops with the serial or the amount
    error; and with both larger it does return the exact difference. *)
Theorem verifyChequeAgainstLast_no_wrap (c l : Cheque) (expectedAmount : Z) :
  is_uint64 (Amount c) -> is_uint64 (Amount l) ->
  (forall actualAmount : Z,
     verifyChequeAgainstLast c (Some l) expectedAmount = (actualAmount, None) ->
     Serial l < Serial c /\ Amount l < Amount c /\
     actualAmount = Amount c - Amount l /\
     0 < actualAmount < uint64_modulus) /\
  (forall returned expected actualAmount : Z,
     verifyChequeAgainstLast c (Some l) expectedAmount
     = (returned, Some (ErrUnexpectedAmount expected actualAmount)) ->
     Serial l < Serial c /\ Amount l < Amount c /\
     actualAmount = Amount c - Amount l /\
     0 < actualAmount < uint64_modulus) /\
  (Amount c <= Amount l ->
   exists err : error,
     verifyChequeAgainstLast c (Some l) expectedAmount = (0, Some err) /\
     (err = ErrSerialNotLarger (Serial l) (Serial c) \/
      err = ErrAmountNotLarger (Amount l) (Amount c))) /\
  (Serial l < Serial c -> Amount l < Amount c ->
   verifyChequeAgainstLast c (Some l) (Amount c - Amount l)
   = (Amount c - Amount l, None)).
Proof.
  intros Hc Hl. unfold verifyChequeAgainstLast.
  destruct (Z.leb_spec (Serial c) (Serial l)) as [Hs|Hs].
  { split; [intros a E; discriminate E|].
    split; [intros r x y E; discriminate E|].
    split; [eauto | lia]. }
  destruct (Z.leb_spec (Amount c) (Amount l)) as [Ha|Ha].
  { split; [intros a E; discriminate E|].
    split; [intros r x y E; discriminate E|].
    split; [eauto | lia]. }
  rewrite (sub64_exact (Amount c) (Amount l) Hc Hl Ha), Z.eqb_refl.
  assert (Hr : 0 < Amount c - Amount l < uint64_modulus)
    by (unfold is_uint64 in *; lia).
  split; [|split; [|split; [lia | reflexivity]]].
  - intros a. destruct (expectedAmount =? Amount c - Amount l); cbn [negb];
      intros E; [|discriminate E].
    injection E as <-. repeat split; (assumption || lia).
  - intros r x y. destruct (expectedAmount =? Amount c - Amount l);
      cbn [negb]; intros E; [discriminate E|].
    injection E as _ _ <-. repeat split; (assumption || lia).
Qed.

(** ** Equality of cheques *)

Lemma Equal_true_iff (c o : Cheque) :
  Equal c o = true <->
  Serial c = Serial o /\ Beneficiary c = Beneficiary o /\
  Amount c = Amount o /\ Timeout c = Timeout o /\ Honey c = Honey o /\
  slice_bytes (Signature c) = slice_bytes (Signature o).
Proof.
  unfold Equal, bytes_Equal.
  destruct (Z.eqb_spec (Serial c) (Serial o)); cbn [negb];
    [|split; [discriminate | tauto]].
  destruct (decide (Beneficiary c = Beneficiary o)) as [Eb|Eb].
  2:{ rewrite bool_decide_eq_true_2 by exact Eb.
      split; [discriminate | tauto]. }
  rewrite bool_decide_eq_false_2 by (intros Hne; now apply Hne).
  destruct (Z.eqb_spec (Amount c) (Amount o)); cbn [negb];
    [|split; [discriminate | tauto]].
  destruct (Z.eqb_spec (Timeout c) (Timeout o)); cbn [negb];
    [|split; [discriminate | tauto]].
  destruct (Z.eqb_spec (Honey c) (Honey o)); cbn [negb];
    [|split; [discriminate | tauto]].
  destruct (decide (slice_bytes (Signature c) = slice_bytes (Signature o)))
    as [Es|Es].
  - rewrite bool_decide_eq_true_2 by exact Es. cbn [negb]. tauto.
  - rewrite bool_decide_eq_false_2 by exact Es. cbn [negb].
    split; [discriminate | tauto].
Qed.

Lemma Equal_refl (c : Cheque) : Equal c c = true.
Proof. apply Equal_true_iff. tauto. Qed.

Lemma Equal_sym (c o : Cheque) : Equal c o = Equal o c.
Proof.
  destruct (Equal o c) eqn:E.
  - apply Equal_true_iff in E. apply Equal_true_iff.
    destruct E as (? & ? & ? & ? & ? & ?). repeat split; congruence.
  - destruct (Equal c o) eqn:E'; [|reflexivity].
    apply Equal_true_iff in E'. rewrite <- E. symmetry.
    apply Equal_true_iff.
    destruct E' as (? & ? & ? & ? & ? & ?). repeat split; congruence.
Qed.

(** A difference in a field that [Equal] compares makes it false. *)
Lemma Equal_false_compared (c o : Cheque) :
  Serial c <> Serial o \/ Beneficiary c <> Beneficiary o \/
  Amount c <> Amount o \/ Timeout c <> Timeout o \/ Honey c <> Honey o \/
  slice_bytes (Signature c) <> slice_bytes (Signature o) ->
  Equal c o = false.
Proof.
  intros Hd. destruct (Equal c o) eqn:E; [|reflexivity].
  apply Equal_true_iff in E. tauto.
Qed.

(** [Equal] never looks at the contract. *)
Lemma Equal_any_Contract (c : Cheque) (contract : Address) :
  Equal c {| Contract := contract; Beneficiary := Beneficiary c;
             Serial := Serial c; Amount := Amount c; Timeout := Timeout c;
             Honey := Honey c; Signature := Signature c |} = true.
Proof. apply Equal_true_iff. simpl. tauto. Qed.

(** C5, at the input where the code parts from it: two cheques that
    differ in the contract field, and in nothing else, are [Equal]. *)
Theorem Equal_misses_Contract :
  Contract ModelCrypto.chequeA <> Contract ModelCrypto.chequeA_other_contract /\
  wf_cheque ModelCrypto.chequeA /\
  wf_cheque ModelCrypto.chequeA_other_contract /\
  Equal ModelCrypto.chequeA ModelCrypto.chequeA_other_contract = true.
Proof.
  split; [simpl; intros E; discriminate E|].
  split; [exact wf_chequeA|].
  split; [|reflexivity].
  split; unfold is_address, is_uint64, uint64_modulus; simpl;
    try reflexivity; lia.
Qed.

End Properties.

(** ** Further properties of the signer and verifier *)

Section FurtherProperties.
Context `{Crypto}.

Lemma slice_modify_nil (f : byte -> byte) :
  slice_modify [] (Z.of_nat (length (@nil byte)) - 1) f = Panic.
Proof. reflexivity. Qed.

(** The three ways [Sign] can end, by what the primitive returned. *)
Lemma Sign_cases (c : Cheque) (prv : PrivateKey) (h : list byte) :
  sigHash c = Ret h ->
  Sign c prv
  = match crypto_Sign h prv with
    | inr err => Ret (None, Some (ErrCrypto err))
    | inl raw =>
        match rev raw with
        | [] => Panic
        | v :: sr => Ret (Some (rev sr ++ [byte_add v 27]), None)
        end
    end.
Proof.
  intros Hh. unfold Sign. rewrite Hh. cbn [obind].
  destruct (crypto_Sign h prv) as [raw|err]; [|reflexivity].
  destruct (rev raw) as [|v sr] eqn:E.
  - apply (f_equal (@rev byte)) in E. rewrite rev_involutive in E.
    subst raw. reflexivity.
  - apply (f_equal (@rev byte)) in E. rewrite rev_involutive in E.
    subst raw. change (rev (v :: sr)) with (rev sr ++ [v]).
    now rewrite slice_modify_last.
Qed.

Lemma Sign_inv (c : Cheque) (prv : PrivateKey) (sig : list byte) :
  Sign c prv = Ret (Some sig, None) ->
  exists (h rs : list byte) (v : byte),
    sigHash c = Ret h /\ crypto_Sign h prv = inl (rs ++ [v]) /\
    sig = rs ++ [byte_add v 27].
Proof.
  intros Hs. destruct (sigHash_total c) as [h Hh].
  rewrite (Sign_cases c prv h Hh) in Hs.
  destruct (crypto_Sign h prv) as [raw|err] eqn:Hraw; [|discriminate].
  destruct (rev raw) as [|v sr] eqn:E; [discriminate|].
  apply (f_equal (@rev byte)) in E. rewrite rev_involutive in E.
  subst raw. exists h, (rev sr), v.
  split; [exact Hh|]. split; [exact Hraw|]. congruence.
Qed.

(** What [VerifySig] answers, for any expected signer, on a cheque that
    carries the signature [Sign] made for it. *)
Lemma VerifySig_of_Sign (c : Cheque) (prv : PrivateKey) (sig : list byte)
    (a : Address) :
  sign_recoverable ->
  Sign c prv = Ret (Some sig, None) ->
  VerifySig (with_Signature c (Some sig)) a
  = Ret (if bool_decide (PubkeyToAddress (PrivateKey_PublicKey prv) <> a)
         then Some ErrInvalidChequeSignature else None).
Proof.
  intros Hcrypto Hs.
  destruct (Sign_inv c prv sig Hs) as (h & rs & v & Hh & Hraw & ->).
  destruct (Hcrypto h prv _ Hraw) as [Hlen Hrec].
  rewrite (VerifySig_65 _ a rs (byte_add v 27) h);
    [| reflexivity
     | rewrite length_app in *; exact Hlen
     | now rewrite sigHash_with_Signature].
  now rewrite byte_sub_add, Hrec.
Qed.

Lemma VerifySig_same_fields (c1 c2 : Cheque) (a : Address) :
  encoded_fields c1 = encoded_fields c2 -> Signature c1 = Signature c2 ->
  VerifySig c1 a = VerifySig c2 a.
Proof.
  intros Ef Es. unfold VerifySig.
  now rewrite (sigHash_fields c1 c2 Ef), Es.
Qed.

Lemma VerifySig_success_inv (c : Cheque) (a : Address) :
  VerifySig c a = Ret None ->
  exists (rs : list byte) (v : byte) (h : list byte) (pubKey : PublicKey),
    Signature c = Some (rs ++ [v]) /\ length (rs ++ [v]) = 65%nat /\
    sigHash c = Ret h /\
    SigToPub h (rs ++ [byte_sub v 27]) = inl pubKey /\
    PubkeyToAddress pubKey = a.
Proof.
  intros Hv. destruct (Signature c) as [s|] eqn:Hsig.
  2:{ rewrite (VerifySig_nil c a Hsig) in Hv. discriminate Hv. }
  destruct (Nat.eq_dec (length s) 65%nat) as [E|E].
  2:{ rewrite (VerifySig_bad_length c a s Hsig E) in Hv. discriminate Hv. }
  destruct (length_65_snoc s E) as (rs & v & ->).
  destruct (sigHash_total c) as [h Hh].
  rewrite (VerifySig_65 c a rs v h Hsig E Hh) in Hv.
  destruct (SigToPub h (rs ++ [byte_sub v 27])) as [pubKey|err] eqn:Hrec;
    [|discriminate].
  destruct (decide (PubkeyToAddress pubKey = a)) as [Ea|Ea].
  - exists rs, v, h, pubKey. repeat split; assumption.
  - rewrite bool_decide_eq_true_2 in Hv by exact Ea. discriminate Hv.
Qed.

(** X1. [VerifySig] succeeds exactly when the signature has 65 bytes and
    recovery, run on the hash of the cheque and on the signature with its
    last byte lowered by 27, gives a key whose address is the expected
    signer. *)
Theorem VerifySig_success_iff (c : Cheque) (expectedSigner : Address) :
  VerifySig c expectedSigner = Ret None <->
  exists (rs : list byte) (v : byte) (h : list byte) (pubKey : PublicKey),
    Signature c = Some (rs ++ [v]) /\ length (rs ++ [v]) = 65%nat /\
    sigHash c = Ret h /\
    SigToPub h (rs ++ [byte_sub v 27]) = inl pubKey /\
    PubkeyToAddress pubKey = expectedSigner.
Proof.
  split; [apply VerifySig_success_inv|].
  intros (rs & v & h & pubKey & Hsig & Hlen & Hh & Hrec & Ha).
  rewrite (VerifySig_65 c expectedSigner rs v h Hsig Hlen Hh), Hrec.
  now rewrite bool_decide_eq_false_2 by (intros Hne; now apply Hne).
Qed.

(** X2. A cheque verifies against at most one signer: two addresses for
    which [VerifySig] succeeds on the same cheque are the same address. *)
Theorem VerifySig_signer_unique (c : Cheque) (a1 a2 : Address) :
  VerifySig c a1 = Ret None -> VerifySig c a2 = Ret None -> a1 = a2.
Proof.
  intros H1 H2.
  destruct (VerifySig_success_inv c a1 H1)
    as (rs1 & v1 & h1 & k1 & Hs1 & _ & Hh1 & Hr1 & <-).
  destruct (VerifySig_success_inv c a2 H2)
    as (rs2 & v2 & h2 & k2 & Hs2 & _ & Hh2 & Hr2 & <-).
  rewrite Hs1 in Hs2. injection Hs2 as Es.
  apply app_inj_tail in Es as [-> ->].
  rewrite Hh1 in Hh2. injection Hh2 as ->.
  rewrite Hr1 in Hr2. now injection Hr2 as ->.
Qed.

(** X3. The signature does not cover the honey: two cheques with the same
    contract, beneficiary, serial, amount and timeout and the same signature
    bytes get the same answer from [VerifySig], whatever their honey. *)
Theorem VerifySig_ignores_honey (c1 c2 : Cheque) (expectedSigner : Address) :
  encoded_fields c1 = encoded_fields c2 -> Signature c1 = Signature c2 ->
  VerifySig c1 expectedSigner = VerifySig c2 expectedSigner.
Proof. apply VerifySig_same_fields. Qed.

(** X4. How [Sign] ends: an error of the primitive is returned as it is,
    with a nil signature; an empty signature from the primitive makes the
    update of the last byte panic; otherwise the result is the primitive's
    signature with 27 added to its last byte, of the same length. *)
Theorem Sign_outcomes (c : Cheque) (prv : PrivateKey) :
  exists h : list byte,
    sigHash c = Ret h /\
    (forall err : CryptoError,
       crypto_Sign h prv = inr err ->
       Sign c prv = Ret (None, Some (ErrCrypto err))) /\
    (crypto_Sign h prv = inl [] -> Sign c prv = Panic) /\
    (forall (rs : list byte) (v : byte),
       crypto_Sign h prv = inl (rs ++ [v]) ->
       Sign c prv = Ret (Some (rs ++ [byte_add v 27]), None) /\
       length (rs ++ [byte_add v 27]) = length (rs ++ [v])).
Proof.
  destruct (sigHash_total c) as [h Hh]. exists h.
  split; [exact Hh|]. rewrite (Sign_cases c prv h Hh).
  split; [|split].
  - now intros err ->.
  - now intros ->.
  - intros rs v ->. rewrite rev_unit, rev_involutive.
    split; [reflexivity|]. now rewrite !length_app.
Qed.

(** X5. [Sign] reads the five encoded fields only: cheques that agree on
    them get the same result, so honey and an earlier signature do not
    influence the signature made. *)
Theorem Sign_fields_only (c1 c2 : Cheque) (prv : PrivateKey) :
  encoded_fields c1 = encoded_fields c2 -> Sign c1 prv = Sign c2 prv.
Proof.
  intros E. unfold Sign. now rewrite (sigHash_fields c1 c2 E).
Qed.

(** X6. With primitives that meet their contract, a cheque signed by
    [Sign] is refused, with [ErrInvalidChequeSignature], for every expected
    signer other than the address of the signing key. *)
Theorem Sign_other_signer_rejected (c : Cheque) (prv : PrivateKey)
    (sig : list byte) (expectedSigner : Address) :
  sign_recoverable ->
  Sign c prv = Ret (Some sig, None) ->
  expectedSigner <> PubkeyToAddress (PrivateKey_PublicKey prv) ->
  VerifySig (with_Signature c (Some sig)) expectedSigner
  = Ret (Some ErrInvalidChequeSignature).
Proof.
  intros Hcrypto Hs Hne.
  rewrite (VerifySig_of_Sign c prv sig expectedSigner Hcrypto Hs).
  now rewrite bool_decide_eq_true_2 by (intros E; now apply Hne).
Qed.

(** X7. With primitives that meet their contract, a cheque with timeout 0
    that its issuer signed with [Sign] passes [verifyChequeProperties] for
    the peer holding the cheque's contract and the issuer's address, with
    the cheque's beneficiary as the expected one. *)
Theorem Sign_then_verifyChequeProperties (c : Cheque) (prv : PrivateKey)
    (sig : list byte) (p : Peer) :
  sign_recoverable ->
  Sign c prv = Ret (Some sig, None) ->
  contractAddress p = Contract c ->
  beneficiary p = PubkeyToAddress (PrivateKey_PublicKey prv) ->
  Timeout c = 0 ->
  verifyChequeProperties (with_Signature c (Some sig)) p (Beneficiary c)
  = Ret None.
Proof.
  intros Hcrypto Hs Hc Hb Ht. apply verifyChequeProperties_ok.
  unfold properties_ok.
  split; [now rewrite Hc|]. split; [|split; [reflexivity | exact Ht]].
  rewrite (VerifySig_of_Sign c prv sig (beneficiary p) Hcrypto Hs).
  now rewrite bool_decide_eq_false_2 by (intros Hne; now apply Hne).
Qed.

(** X8. With a hash function of 32-byte digests, the text that is hashed
    for signing is the personal-message header for length 32 followed by
    the digest of the encoded cheque. *)
Theorem sigHash_personal_message (c : Cheque) :
  (forall data : list byte, length (Keccak256 data) = 32%nat) ->
  exists encoded : list byte,
    encodeForSignature c = Ret encoded /\
    sigHash c
    = Ret (Keccak256 (personalMessageHeader32 ++ Keccak256 encoded)).
Proof.
  intros H32. destruct (sigHash_Ret c) as (enc & He & Hh).
  exists enc. split; [exact He|]. rewrite Hh, H32. reflexivity.
Qed.

(** X9. None of the codec and verification functions panics: for every
    cheque, peer and address, [encodeForSignature], [sigHash], [VerifySig]
    and [verifyChequeProperties] return. *)
Theorem verification_never_panics (c : Cheque) (p : Peer) (a : Address) :
  (exists enc : list byte, encodeForSignature c = Ret enc) /\
  (exists h : list byte, sigHash c = Ret h) /\
  (exists r : option error, VerifySig c a = Ret r) /\
  (exists r : option error, verifyChequeProperties c p a = Ret r).
Proof.
  split; [eexists; apply encodeForSignature_Ret|].
  split; [apply sigHash_total|].
  split; [apply VerifySig_total | apply verifyChequeProperties_total].
Qed.

(** X10. [verifyChequeProperties] reports the first check that fails, in
    the order contract, signature, beneficiary, timeout: a wrong contract
    is reported whatever the signature; an error of [VerifySig] is returned
    as it is; a wrong beneficiary is reported before a wrong timeout. *)
Theorem verifyChequeProperties_first_failure (c : Cheque) (p : Peer)
    (expectedBeneficiary : Address) :
  (Contract c <> contractAddress p ->
   verifyChequeProperties c p expectedBeneficiary
   = Ret (Some (ErrWrongContract (contractAddress p) (Contract c)))) /\
  (forall err : error,
     Contract c = contractAddress p ->
     VerifySig c (beneficiary p) = Ret (Some err) ->
     verifyChequeProperties c p expectedBeneficiary = Ret (Some err)) /\
  (Contract c = contractAddress p ->
   VerifySig c (beneficiary p) = Ret None ->
   Beneficiary c <> expectedBeneficiary ->
   verifyChequeProperties c p expectedBeneficiary
   = Ret (Some (ErrWrongBeneficiary expectedBeneficiary (Beneficiary c)))) /\
  (Contract c = contractAddress p ->
   VerifySig c (beneficiary p) = Ret None ->
   Beneficiary c = expectedBeneficiary ->
   Timeout c <> 0 ->
   verifyChequeProperties c p expectedBeneficiary
   = Ret (Some (ErrWrongTimeout (Timeout c)))).
Proof.
  unfold verifyChequeProperties. repeat split.
  - intros Hc. now rewrite bool_decide_eq_true_2 by exact Hc.
  - intros err Hc Hv.
    rewrite bool_decide_eq_false_2 by (intros Hne; now apply Hne).
    now rewrite Hv.
  - intros Hc Hv Hb.
    rewrite bool_decide_eq_false_2 by (intros Hne; now apply Hne).
    rewrite Hv. cbn [obind]. now rewrite bool_decide_eq_true_2 by exact Hb.
  - intros Hc Hv Hb Ht.
    rewrite bool_decide_eq_false_2 by (intros Hne; now apply Hne).
    rewrite Hv. cbn [obind].
    rewrite bool_decide_eq_false_2 by (intros Hne; now apply Hne).
    apply Z.eqb_neq in Ht. now rewrite Ht.
Qed.

(** ** Further properties of the progression validator *)

Lemma verifyChequeAgainstLast_success_inv (c l : Cheque) (e a : Z) :
  verifyChequeAgainstLast c (Some l) e = (a, None) ->
  Serial l < Serial c /\ Amount l < Amount c /\
  a = sub64 (Amount c) (Amount l) /\ e = a.
Proof.
  unfold verifyChequeAgainstLast.
  destruct (Z.leb_spec (Serial c) (Serial l)); [discriminate|].
  destruct (Z.leb_spec (Amount c) (Amount l)); [discriminate|].
  destruct (Z.eqb_spec e (sub64 (Amount c) (Amount l))); cbn [negb];
    [|discriminate].
  intros E. injection E as <-. repeat split; assumption.
Qed.

Lemma verifyChequeAgainstLast_success_snd (c : Cheque) (l : option Cheque)
    (e : Z) :
  snd (verifyChequeAgainstLast c l e) = None ->
  verifyChequeAgainstLast c l e = (e, None).
Proof.
  unfold verifyChequeAgainstLast. destruct l as [l|].
  - destruct (Serial c <=? Serial l); [discriminate|].
    destruct (Amount c <=? Amount l); [discriminate|].
    destruct (Z.eqb_spec e (sub64 (Amount c) (Amount l))); cbn [negb snd];
      [congruence | discriminate].
  - destruct (Z.eqb_spec e (Amount c)); cbn [negb snd];
      [congruence | discriminate].
Qed.

(** X11. The amount [verifyChequeAgainstLast] returns: on success it is
    the expected amount, with or without a previous cheque; with an error
    it is 0. *)
Theorem verifyChequeAgainstLast_returned_amount (c : Cheque)
    (lastCheque : option Cheque) (expectedAmount : Z) :
  (snd (verifyChequeAgainstLast c lastCheque expectedAmount) = None ->
   fst (verifyChequeAgainstLast c lastCheque expectedAmount) = expectedAmount)
  /\
  (snd (verifyChequeAgainstLast c lastCheque expectedAmount) <> None ->
   fst (verifyChequeAgainstLast c lastCheque expectedAmount) = 0).
Proof.
  split.
  - intros Hs. now rewrite (verifyChequeAgainstLast_success_snd _ _ _ Hs).
  - unfold verifyChequeAgainstLast. destruct lastCheque as [l|].
    + destruct (Serial c <=? Serial l); [reflexivity|].
      destruct (Amount c <=? Amount l); [reflexivity|].
      destruct (negb _); [reflexivity|]. cbn [snd]. congruence.
    + destruct (negb _); [reflexivity|]. cbn [snd]. congruence.
Qed.

(** X12. A cheque accepted against a previous one (uint64 amounts) has a
    larger serial and a larger amount, and the expected amount was the
    exact difference of the amounts, positive and below 2^64; so an
    expected amount of 0 is never accepted against a previous cheque. *)
Theorem verifyChequeAgainstLast_sound (c l : Cheque) (expectedAmount : Z) :
  is_uint64 (Amount c) -> is_uint64 (Amount l) ->
  snd (verifyChequeAgainstLast c (Some l) expectedAmount) = None ->
  Serial l < Serial c /\ Amount l < Amount c /\
  expectedAmount = Amount c - Amount l /\
  0 < expectedAmount < uint64_modulus.
Proof.
  intros Hc Hl Hs. apply verifyChequeAgainstLast_success_snd in Hs.
  apply verifyChequeAgainstLast_success_inv in Hs
    as (Hser & Ham & He & _).
  rewrite sub64_exact in He by assumption.
  unfold is_uint64 in *. repeat split; lia.
Qed.

(** X13. Acceptance composes along a chain: if [c2] is accepted against
    [c1] for [e2] and [c3] against [c2] for [e3] (uint64 amounts), then
    [c3] is accepted against [c1] for [e2 + e3]. *)
Theorem verifyChequeAgainstLast_chain (c1 c2 c3 : Cheque) (e2 e3 : Z) :
  is_uint64 (Amount c1) -> is_uint64 (Amount c2) -> is_uint64 (Amount c3) ->
  verifyChequeAgainstLast c2 (Some c1) e2 = (e2, None) ->
  verifyChequeAgainstLast c3 (Some c2) e3 = (e3, None) ->
  verifyChequeAgainstLast c3 (Some c1) (e2 + e3) = (e2 + e3, None).
Proof.
  intros H1 H2 H3 H21 H32.
  apply verifyChequeAgainstLast_success_inv in H21 as (S21 & A21 & E2 & _).
  apply verifyChequeAgainstLast_success_inv in H32 as (S32 & A32 & E3 & _).
  rewrite sub64_exact in E2, E3 by assumption.
  rewrite verifyChequeAgainstLast_increasing by lia.
  rewrite sub64_exact by (assumption || lia).
  replace (Amount c3 - Amount c1) with (e2 + e3) by lia.
  now rewrite Z.eqb_refl.
Qed.

(** X14. Acceptance is one-way: when [c] is accepted against [l], [l] is
    refused against [c] for every expected amount; and a cheque is always
    refused against itself, with the serial error. *)
Theorem verifyChequeAgainstLast_one_way (c l : Cheque) (e e' : Z) :
  (snd (verifyChequeAgainstLast c (Some l) e) = None ->
   verifyChequeAgainstLast l (Some c) e'
   = (0, Some (ErrSerialNotLarger (Serial c) (Serial l)))) /\
  verifyChequeAgainstLast c (Some c) e
  = (0, Some (ErrSerialNotLarger (Serial c) (Serial c))).
Proof.
  split.
  - intros Hs. apply verifyChequeAgainstLast_success_snd in Hs.
    apply verifyChequeAgainstLast_success_inv in Hs as (Hser & _).
    unfold verifyChequeAgainstLast.
    destruct (Z.leb_spec (Serial l) (Serial c)); [reflexivity | lia].
  - unfold verifyChequeAgainstLast. now rewrite Z.leb_refl.
Qed.

(** ** Further properties of [Equal] *)

(** X15. [Equal] is an equivalence on cheques: reflexive, symmetric and
    transitive. *)
Theorem Equal_equivalence :
  (forall c : Cheque, Equal c c = true) /\
  (forall c o : Cheque, Equal c o = Equal o c) /\
  (forall a b c : Cheque,
     Equal a b = true -> Equal b c = true -> Equal a c = true).
Proof.
  split; [apply Equal_refl|]. split; [apply Equal_sym|].
  intros a b c Hab Hbc. apply Equal_true_iff in Hab, Hbc.
  apply Equal_true_iff.
  destruct Hab as (? & ? & ? & ? & ? & ?), Hbc as (? & ? & ? & ? & ? & ?).
  repeat split; congruence.
Qed.

(** X16. [Equal] compares signatures by their bytes, a nil signature
    counting as an empty one: it does not tell an unsigned cheque from the
    same cheque with an empty signature, although [VerifySig] answers the
    two with different errors. *)
Theorem Equal_nil_and_empty_signature (c : Cheque) (a : Address) :
  Equal (with_Signature c None) (with_Signature c (Some [])) = true /\
  VerifySig (with_Signature c None) a = Ret (Some ErrSignatureNil) /\
  VerifySig (with_Signature c (Some [])) a
  = Ret (Some (ErrSignatureLength 0)).
Proof.
  split; [apply Equal_true_iff; simpl; tauto|].
  split; [now apply VerifySig_nil|].
  now apply (VerifySig_bad_length _ a []).
Qed.

(** X17. Cheques that [Equal] does not tell apart are interchangeable
    for [verifyChequeAgainstLast], as the cheque checked and as the
    previous cheque: the results are the same. *)
Theorem Equal_same_progression (c o l m : Cheque) (expectedAmount : Z) :
  Equal c o = true -> Equal l m = true ->
  verifyChequeAgainstLast c (Some l) expectedAmount
  = verifyChequeAgainstLast o (Some m) expectedAmount /\
  verifyChequeAgainstLast c None expectedAmount
  = verifyChequeAgainstLast o None expectedAmount.
Proof.
  intros Hco Hlm.
  apply Equal_true_iff in Hco as (Es & _ & Ea & _).
  apply Equal_true_iff in Hlm as (Els & _ & Ela & _).
  unfold verifyChequeAgainstLast. now rewrite Es, Ea, Els, Ela.
Qed.

End FurtherProperties.

(** ** The properties on the model instance *)

Import ModelCrypto.

Lemma model_sign_recoverable : sign_recoverable.
Proof.
  intros h k sig E.
  change (@inl (list byte) unit (replicate 32 k ++ pad32 h ++ [x00])
          = inl sig) in E.
  assert (sig = replicate 32 k ++ pad32 h ++ [x00]) as -> by congruence.
  clear E. split.
  - rewrite !length_app, length_replicate. unfold pad32.
    rewrite length_take, length_app. unfold make.
    rewrite length_replicate. simpl length. lia.
  - change (recover h (replicate 32 k ++ pad32 h ++ [x00]) = inl k).
    unfold recover.
    change ((replicate 32 k ++ pad32 h ++ [x00]) !! 0%nat) with (Some k).
    cbv beta iota. now rewrite bool_decide_eq_true_2 by reflexivity.
Qed.

Example scenario_A :
  verifyChequeProperties (signed chequeA) peerA addrB = Ret None.
Proof. reflexivity. Qed.

Example scenario_B :
  verifyChequeAgainstLast chequeB (Some chequeA) 50 = (50, None).
Proof. reflexivity. Qed.

Example scenario_C :
  verifyChequeAgainstLast chequeC (Some chequeB) 50
  = (0, Some (ErrSerialNotLarger 2 2)).
Proof. reflexivity. Qed.

Example scenario_D :
  VerifySig (signed chequeD) (address_of key) = Ret None /\
  verifyChequeProperties (signed chequeD) peerA addrB
  = Ret (Some (ErrWrongTimeout 5)).
Proof. split; reflexivity. Qed.

(** Without the subtraction of 27 the model's recovery would refuse the
    signature: the byte that reaches it is the raw one. *)
Example signed_recovery_byte :
  Signature (signed chequeA) = Some (replicate 32 key ++ pad32 hashA ++ [x1b]) /\
  SigToPub hashA (replicate 32 key ++ pad32 hashA ++ [x1b]) = inr tt /\
  SigToPub hashA (replicate 32 key ++ pad32 hashA ++ [byte_sub x1b 27])
  = inl key.
Proof. repeat split. Qed.

Example unsigned_rejected :
  VerifySig chequeA (address_of key) = Ret (Some ErrSignatureNil) /\
  VerifySig chequeA_other_honey (address_of key)
  = Ret (Some (ErrSignatureLength 2)).
Proof. split; reflexivity. Qed.

Lemma verifyChequeAgainstLast_monotonic_witness :
  is_uint64 (Amount chequeB) /\ is_uint64 (Amount chequeA) /\
  verifyChequeAgainstLast chequeB (Some chequeA) 50 = (50, None).
Proof.
  assert (HB : is_uint64 (Amount chequeB)) by exact (wf_Amount _ wf_chequeB).
  assert (HA : is_uint64 (Amount chequeA)) by exact (wf_Amount _ wf_chequeA).
  split; [exact HB|]. split; [exact HA|].
  apply (verifyChequeAgainstLast_monotonic chequeB chequeA 50 HB HA);
    simpl; lia.
Defined.

Lemma verifyChequeAgainstLast_no_wrap_witness :
  is_uint64 (Amount chequeB) /\ is_uint64 (Amount chequeA) /\
  verifyChequeAgainstLast chequeB (Some chequeA) 50 = (50, None) /\
  50 = Amount chequeB - Amount chequeA /\
  exists err : error,
    verifyChequeAgainstLast chequeA (Some chequeB) 50 = (0, Some err).
Proof.
  assert (HB : is_uint64 (Amount chequeB)) by exact (wf_Amount _ wf_chequeB).
  assert (HA : is_uint64 (Amount chequeA)) by exact (wf_Amount _ wf_chequeA).
  split; [exact HB|]. split; [exact HA|].
  destruct (verifyChequeAgainstLast_no_wrap chequeB chequeA 50 HB HA)
    as (Hok & _ & _ & _).
  destruct (verifyChequeAgainstLast_no_wrap chequeA chequeB 50 HA HB)
    as (_ & _ & Hstop & _).
  split; [reflexivity|].
  split; [exact (proj1 (proj2 (proj2 (Hok 50 eq_refl))))|].
  destruct Hstop as (err & E & _); [simpl; lia|]. exists err. exact E.
Defined.

Lemma encoding_ignores_honey_and_signature_witness :
  encoded_fields chequeA = encoded_fields chequeA_other_honey /\
  Honey chequeA <> Honey chequeA_other_honey /\
  Signature chequeA <> Signature chequeA_other_honey /\
  encodeForSignature chequeA = encodeForSignature chequeA_other_honey /\
  sigHash chequeA = sigHash chequeA_other_honey.
Proof.
  split; [reflexivity|].
  split; [simpl; lia|].
  split; [simpl; intros E; discriminate E|].
  exact (encoding_ignores_honey_and_signature chequeA chequeA_other_honey
           eq_refl).
Defined.

Lemma Sign_VerifySig_roundtrip_witness :
  sign_recoverable /\
  sigHash chequeA = Ret hashA /\
  crypto_Sign hashA key = inl rawA /\
  exists (rs : list byte) (v : byte),
    rawA = rs ++ [v] /\
    Sign chequeA key = Ret (Some (rs ++ [byte_add v 27]), None) /\
    length (rs ++ [byte_add v 27]) = 65%nat /\
    (byte_to_Z v <= 1 -> byte_to_Z (byte_add v 27) = byte_to_Z v + 27) /\
    VerifySig (with_Signature chequeA (Some (rs ++ [byte_add v 27])))
      (PubkeyToAddress (PrivateKey_PublicKey key)) = Ret None.
Proof.
  split; [exact model_sign_recoverable|].
  split; [reflexivity|].
  split; [reflexivity|].
  exact (Sign_VerifySig_roundtrip chequeA key hashA rawA
           model_sign_recoverable eq_refl eq_refl).
Defined.

Lemma encodeForSignature_layout_witness :
  wf_cheque chequeA /\
  exists enc : list byte,
    encodeForSignature chequeA = Ret enc /\
    enc = spec_encoding chequeA /\
    length enc = 136%nat /\
    take 20 enc = Contract chequeA /\
    take 20 (drop 20 enc) = Beneficiary chequeA /\
    uint64_field (Serial chequeA) (take 32 (drop 40 enc)) /\
    uint64_field (Amount chequeA) (take 32 (drop 72 enc)) /\
    uint64_field (Timeout chequeA) (drop 104 enc).
Proof.
  split; [exact wf_chequeA | exact (encodeForSignature_layout _ wf_chequeA)].
Defined.

Lemma encodeForSignature_injective_witness :
  wf_cheque chequeA /\ wf_cheque chequeB /\
  encoded_fields chequeA <> encoded_fields chequeB /\
  encodeForSignature chequeA
  <> encodeForSignature chequeB.
Proof.
  assert (N : encoded_fields chequeA
              <> encoded_fields chequeB).
  { unfold encoded_fields. simpl. intros E. discriminate E. }
  split; [exact wf_chequeA|]. split; [exact wf_chequeB|]. split; [exact N|].
  exact (encodeForSignature_injective _ _ wf_chequeA wf_chequeB N).
Defined.

Lemma model_keccak_32 (data : list byte) : length (Keccak256 data) = 32%nat.
Proof.
  change (length (pad32 (byte_of_Z (Z.of_nat (length data)) :: rev data))
          = 32%nat).
  unfold pad32, make. rewrite length_take, length_app, length_replicate. lia.
Qed.

Lemma Sign_chequeA : Sign chequeA key = Ret (Some sigA, None).
Proof. reflexivity. Qed.

Lemma VerifySig_signer_unique_witness :
  VerifySig (signed chequeA) (address_of key) = Ret None /\
  address_of key = address_of key.
Proof.
  assert (Hv : VerifySig (signed chequeA) (address_of key) = Ret None)
    by reflexivity.
  split; [exact Hv|].
  exact (VerifySig_signer_unique (signed chequeA) _ _ Hv Hv).
Defined.

Lemma VerifySig_ignores_honey_witness :
  encoded_fields (signed chequeA) = encoded_fields signedA_other_honey /\
  Signature (signed chequeA) = Signature signedA_other_honey /\
  Honey (signed chequeA) <> Honey signedA_other_honey /\
  VerifySig (signed chequeA) (address_of key)
  = VerifySig signedA_other_honey (address_of key).
Proof.
  split; [reflexivity|]. split; [reflexivity|].
  split; [simpl; lia|].
  exact (VerifySig_ignores_honey (signed chequeA) signedA_other_honey
           (address_of key) eq_refl eq_refl).
Defined.

Lemma Sign_fields_only_witness :
  encoded_fields chequeA = encoded_fields chequeA_other_honey /\
  Sign chequeA key = Sign chequeA_other_honey key.
Proof.
  split; [reflexivity|].
  exact (Sign_fields_only chequeA chequeA_other_honey key eq_refl).
Defined.

Lemma Sign_other_signer_rejected_witness :
  sign_recoverable /\
  Sign chequeA key = Ret (Some sigA, None) /\
  addrB <> PubkeyToAddress (PrivateKey_PublicKey key) /\
  VerifySig (with_Signature chequeA (Some sigA)) addrB
  = Ret (Some ErrInvalidChequeSignature).
Proof.
  assert (Hne : addrB <> PubkeyToAddress (PrivateKey_PublicKey key))
    by (intros E; discriminate E).
  split; [exact model_sign_recoverable|].
  split; [exact Sign_chequeA|]. split; [exact Hne|].
  exact (Sign_other_signer_rejected chequeA key sigA addrB
           model_sign_recoverable Sign_chequeA Hne).
Defined.

Lemma Sign_then_verifyChequeProperties_witness :
  sign_recoverable /\
  Sign chequeA key = Ret (Some sigA, None) /\
  contractAddress peerA = Contract chequeA /\
  beneficiary peerA = PubkeyToAddress (PrivateKey_PublicKey key) /\
  Timeout chequeA = 0 /\
  verifyChequeProperties (with_Signature chequeA (Some sigA)) peerA
    (Beneficiary chequeA) = Ret None.
Proof.
  split; [exact model_sign_recoverable|].
  split; [exact Sign_chequeA|].
  split; [reflexivity|]. split; [reflexivity|]. split; [reflexivity|].
  exact (Sign_then_verifyChequeProperties chequeA key sigA peerA
           model_sign_recoverable Sign_chequeA eq_refl eq_refl eq_refl).
Defined.

Lemma sigHash_personal_message_witness :
  (forall data : list byte, length (Keccak256 data) = 32%nat) /\
  exists encoded : list byte,
    encodeForSignature chequeA = Ret encoded /\
    sigHash chequeA
    = Ret (Keccak256 (personalMessageHeader32 ++ Keccak256 encoded)).
Proof.
  split; [exact model_keccak_32|].
  exact (sigHash_personal_message chequeA model_keccak_32).
Defined.

Lemma verifyChequeAgainstLast_sound_witness :
  is_uint64 (Amount chequeB) /\ is_uint64 (Amount chequeA) /\
  snd (verifyChequeAgainstLast chequeB (Some chequeA) 50) = None /\
  Serial chequeA < Serial chequeB /\ Amount chequeA < Amount chequeB /\
  50 = Amount chequeB - Amount chequeA /\
  0 < 50 < uint64_modulus.
Proof.
  assert (HB : is_uint64 (Amount chequeB)) by exact (wf_Amount _ wf_chequeB).
  assert (HA : is_uint64 (Amount chequeA)) by exact (wf_Amount _ wf_chequeA).
  split; [exact HB|]. split; [exact HA|]. split; [reflexivity|].
  exact (verifyChequeAgainstLast_sound chequeB chequeA 50 HB HA eq_refl).
Defined.

Lemma wf_chequeE : wf_cheque chequeE.
Proof.
  split; unfold is_address, is_uint64, uint64_modulus; simpl;
    try reflexivity; lia.
Qed.

Lemma verifyChequeAgainstLast_chain_witness :
  is_uint64 (Amount chequeA) /\ is_uint64 (Amount chequeB) /\
  is_uint64 (Amount chequeE) /\
  verifyChequeAgainstLast chequeB (Some chequeA) 50 = (50, None) /\
  verifyChequeAgainstLast chequeE (Some chequeB) 25 = (25, None) /\
  verifyChequeAgainstLast chequeE (Some chequeA) (50 + 25) = (50 + 25, None).
Proof.
  assert (HA : is_uint64 (Amount chequeA)) by exact (wf_Amount _ wf_chequeA).
  assert (HB : is_uint64 (Amount chequeB)) by exact (wf_Amount _ wf_chequeB).
  assert (HE : is_uint64 (Amount chequeE)) by exact (wf_Amount _ wf_chequeE).
  split; [exact HA|]. split; [exact HB|]. split; [exact HE|].
  split; [reflexivity|]. split; [reflexivity|].
  exact (verifyChequeAgainstLast_chain chequeA chequeB chequeE 50 25
           HA HB HE eq_refl eq_refl).
Defined.

Lemma Equal_same_progression_witness :
  Equal chequeB chequeB_empty_signature = true /\
  Equal chequeA chequeA_empty_signature = true /\
  chequeB <> chequeB_empty_signature /\
  verifyChequeAgainstLast chequeB (Some chequeA) 50 = (50, None) /\
  verifyChequeAgainstLast chequeB_empty_signature
    (Some chequeA_empty_signature) 50 = (50, None).
Proof.
  split; [reflexivity|]. split; [reflexivity|].
  split; [intros E; discriminate E|].
  split; [reflexivity|].
  rewrite <- (proj1 (Equal_same_progression chequeB chequeB_empty_signature
                       chequeA chequeA_empty_signature 50 eq_refl eq_refl)).
  reflexivity.
Defined.
